(** * Cheerp pre-execution: allocator, typed-allocation tracker, interpreter
      entry points and the start-function pass

    A shallow embedding of
      - [include/llvm/Cheerp/PreExecute.h]  ([AllocData], [Allocator],
        [PreExecute::recordTypedAllocation], [PreExecute::releaseTypedAllocation]),
      - [lib/ExecutionEngine/Interpreter/Interpreter.cpp]
        ([Interpreter::create], [Interpreter::runFunction]),
      - [include/llvm/ExecutionEngine/ExecutionEngine.h] ([InstallStoreListener]),
      - [lib/Target/CheerpWasmBackend/CheerpWasmBackend.cpp]
        ([CallGlobalConstructorsOnStartPass::runOnModule]).

    Addresses ([void*], [char*]) are integers; [size_t] is a 64-bit unsigned
    integer with its wrap-around written out; [std::map] is a [gmap];
    [std::vector] is a list; a failed [assert] is an explicit outcome. *)

From Stdlib Require Import ZArith Lia.
From stdpp Require Import gmap strings list fin_maps.

Set Warnings "-register-all,-clear-no-such-hyp".

Local Open Scope Z_scope.

(** ** Outcomes of a call

    [assert(c && "msg")] with a false [c] aborts the process with the message;
    reading a [std::vector] past its end with [operator[]] is undefined. *)

Inductive outcome (A : Type) : Type :=
| Ok (a : A)
| AssertFail (msg : string)
| Undefined.

Arguments Ok {A} a.
Arguments AssertFail {A} msg.
Arguments Undefined {A}.

#[global] Instance outcome_ret : MRet outcome := fun A a => Ok a.

#[global] Instance outcome_bind : MBind outcome := fun A B k m =>
  match m with
  | Ok a => k a
  | AssertFail msg => AssertFail msg
  | Undefined => Undefined
  end.

Definition is_Ok {A : Type} (m : outcome A) : bool :=
  match m with Ok _ => true | _ => false end.

Definition is_AssertFail {A : Type} (m : outcome A) : bool :=
  match m with AssertFail _ => true | _ => false end.

(** ** [size_t] *)

Definition size_t_modulus : Z := 2 ^ 64.

Definition size_t_add (a b : Z) : Z := (a + b) mod size_t_modulus.

(** ** The pieces of the LLVM IR the modelled code looks at *)

(** [llvm::Type], by shape.  A struct carries its size and, for each field,
    the byte offset the data layout assigns to it. *)
Inductive LType : Type :=
| IntegerTy (bytes : nat)
| FloatTy (bytes : nat)
| PointerTy (pointee : LType)
| ArrayTy (elt : LType) (n : nat)
| StructTy (bytes : Z) (fields : list (Z * LType)).

(** A global variable is identified by its symbol. *)
Definition GlobalVariable : Type := string.

(** [llvm::Function], as seen from outside its body: [getName()],
    [getSection()] and [getFunctionType()->getNumParams()]. *)
Record Function : Type := mkFunction {
  getName : string;
  getSection : string;
  getNumParams : nat
}.

(** [llvm::Constant].  [GlobalRef g off] is the address of byte [off] of the
    global [g]; [SynthRef start init off] is the address of byte [off] of the
    hidden global synthesized, with initializer [init], from the allocation
    that starts at [start]; [IntToPtr raw] is a literal address. *)
Inductive Constant : Type :=
| ConstantInt (bytes : nat) (v : Z)
| ConstantFP (bytes : nat) (bits : Z)
| ConstantPointerNull
| FunctionValue (F : Function)
| GlobalRef (g : GlobalVariable) (off : Z)
| SynthRef (start : Z) (init : Constant) (off : Z)
| IntToPtr (raw : Z)
| ConstantArray (elts : list Constant)
| ConstantStruct (elts : list Constant).

(** ** The Address Map *)

(** An entry of the address map: the byte length of the region and, when the
    region is the storage of a global variable, that global; a region without
    a global is a dynamic allocation. *)
Record AddressMapEntry : Type := mkEntry {
  entry_length : Z;
  entry_global : option GlobalVariable
}.

Module AddressMapBase.

(** Modelled from the spec: [llvm::AddressMapBase] is declared in another
    header; here only its calls [map(ptr, size)] and [unmap(ptr)] are seen,
    in [Allocator].  Following the data model, an entry relates the start
    address of a region to its byte length and its owner; [map] registers a
    region that belongs to a new allocation and [unmap] removes the region
    that starts at the address (nothing happens when there is none). *)
Definition map (ptr size : Z) (m : gmap Z AddressMapEntry) : gmap Z AddressMapEntry :=
  <[ptr := {| entry_length := size; entry_global := None |}]> m.

Definition unmap (ptr : Z) (m : gmap Z AddressMapEntry) : gmap Z AddressMapEntry :=
  delete ptr m.

(** Byte [a] lies in the region [e] that starts at [start]. *)
Definition inside (start : Z) (e : AddressMapEntry) (a : Z) : bool :=
  (start <=? a) && (a <? start + entry_length e).

(** Byte [a] lies in some registered region. *)
Definition registered (m : gmap Z AddressMapEntry) (a : Z) : Prop :=
  exists start e, m !! start = Some e /\ inside start e a = true.

(** The interval query: the region that contains [a], with its start. *)
Definition resolve (m : gmap Z AddressMapEntry) (a : Z) : option (Z * AddressMapEntry) :=
  List.find (fun se => inside (fst se) (snd se) a) (map_to_list m).

End AddressMapBase.

(** ** [class AllocData] *)

Record AllocData : Type := mkAllocData {
  globalValue : option GlobalVariable;
  allocType : option LType;
  size : Z
}.

(** [AllocData() : globalValue(nullptr), allocType(nullptr), size(0)] *)
Definition AllocData_default : AllocData :=
  {| globalValue := None; allocType := None; size := 0 |}.

(** ** [class Allocator]

    [allocations] holds the owned buffers, each with the address
    [unique_ptr::get] returns and the number of bytes [make_unique<char[]>]
    backed it with; [mapping] is the address map the allocator references. *)

Module Allocator.

Record t : Type := mk {
  allocations : list (Z * Z);
  mapping : gmap Z AddressMapEntry
}.

(** [Allocator(llvm::AddressMapBase& mapping)] *)
Definition init (m : gmap Z AddressMapEntry) : t :=
  {| allocations := []; mapping := m |}.

(** [void* allocate(size_t size)]; [memory] is the address the host's
    [make_unique<char[]>(size)] hands out for the new buffer. *)
Definition allocate (size memory : Z) (a : t) : Z * t :=
  let ret := memory in
  let mapping' := AddressMapBase.map ret (size_t_add size 4) (mapping a) in
  let allocations' := allocations a ++ [(memory, size)] in
  (ret, {| allocations := allocations'; mapping := mapping' |}).

(** [void deallocate()]: the loop over [allocations], then [clear()]. *)
Definition unmap_all (bufs : list (Z * Z)) (m : gmap Z AddressMapEntry)
  : gmap Z AddressMapEntry :=
  fold_left (fun m a => AddressMapBase.unmap (fst a) m) bufs m.

Definition deallocate (a : t) : t :=
  {| allocations := []; mapping := unmap_all (allocations a) (mapping a) |}.

(** [~Allocator() { deallocate(); }] *)
Definition destroy (a : t) : t := deallocate a.

(** The addresses of the buffers the allocator owns. *)
Definition outstanding (a : t) : list Z := fst <$> allocations a.

(** A run of [allocate] calls: each request is the size asked for and the
    address the host hands out for it. *)
Definition allocateAll (reqs : list (Z * Z)) (a : t) : t :=
  fold_left (fun a r => snd (allocate (fst r) (snd r) a)) reqs a.

End Allocator.

(** ** [class PreExecute]: the typed-allocation tracker *)

Module PreExecute.

Record t : Type := mk {
  allocator : option Allocator.t;
  modifiedGlobals : gmap GlobalVariable Constant;
  typedAllocations : gmap Z AllocData
}.

Definition set_typedAllocations (m : gmap Z AllocData) (p : t) : t :=
  {| allocator := allocator p;
     modifiedGlobals := modifiedGlobals p;
     typedAllocations := m |}.

(** [std::map::insert(std::make_pair(k, v))]: a key that is present keeps
    its element. *)
Definition std_map_insert (k : Z) (v : AllocData) (m : gmap Z AllocData)
  : gmap Z AllocData :=
  match m !! k with
  | Some _ => m
  | None => <[k := v]> m
  end.

(** [void recordTypedAllocation(llvm::Type *type, size_t size, char *buf)] *)
Definition recordTypedAllocation (type : option LType) (size : Z) (buf : Z) (p : t)
  : outcome t :=
  let data := AllocData_default in
  let data := {| globalValue := globalValue data; allocType := type; size := size |} in
  Ok (set_typedAllocations (std_map_insert buf data (typedAllocations p)) p).

(** [void releaseTypedAllocation(char* buf)] *)
Definition releaseTypedAllocation (buf : Z) (p : t) : outcome t :=
  match typedAllocations p !! buf with
  | None => AssertFail "There is no typed allocation recorded with this address"
  | Some _ => Ok (set_typedAllocations (delete buf (typedAllocations p)) p)
  end.

(** The address map the pass sees, through its allocator. *)
Definition addressMap (p : t) : gmap Z AddressMapEntry :=
  match allocator p with
  | Some a => Allocator.mapping a
  | None => ∅
  end.

End PreExecute.

(** ** [class Interpreter] ([Interpreter.cpp]) *)

(** [struct GenericValue] *)
Inductive GenericValue : Type :=
| GV_Untyped (bits : Z)
| GV_Aggregate (vals : list GenericValue).

(** [std::error_code]: its value (zero means success) and the message of its
    category for that value. *)
Record error_code : Type := mkErrorCode {
  ec_value : Z;
  ec_message : string
}.

(** [explicit operator bool()] of [std::error_code] *)
Definition ec_bool (EC : error_code) : bool := negb (ec_value EC =? 0).

Inductive AllocatorKind : Type := DefaultAllocator | VirtualAllocator.
Inductive FunctionMapKind : Type := DefaultFunctionMap | VirtualFunctionMap.

Module Interpreter.

Section WithModule.

(** The module type, and the parts of the engine that live in other
    files: [Module::materializeAllPermanently], [ExecutionEngine::emitGlobals],
    [Interpreter::callFunction] and [Interpreter::run]. *)
Context {LModule : Type}.

Record t : Type := mk {
  Modules : list LModule;
  ForPreExecute : bool;
  CleanAbort : bool;
  MemoryAllocator : AllocatorKind;
  FunctionAddresses : FunctionMapKind;
  ExitValue : GenericValue;
  AtExitHandlers : list Function;
  (** the call stack and the memory of the running program *)
  Execution : list (Function * list GenericValue)
}.

Variable materializeAllPermanently : LModule -> error_code * LModule.
Variable emitGlobals : bool -> t -> t.
Variable callFunction : Function -> list GenericValue -> t -> t.
Variable run : t -> t.

(** [Interpreter::Interpreter(std::unique_ptr<Module> M, bool preExecute)];
    [initializeExecutionEngine], [initializeExternalFunctions] and the
    [IntrinsicLowering] object act on nothing this record holds. *)
Definition construct (M : LModule) (preExecute : bool) : t :=
  let I := {| Modules := [M];
              ForPreExecute := preExecute;
              CleanAbort := false;
              MemoryAllocator := if preExecute then VirtualAllocator else DefaultAllocator;
              FunctionAddresses := if preExecute then VirtualFunctionMap else DefaultFunctionMap;
              ExitValue := GV_Untyped 0;
              AtExitHandlers := [];
              Execution := [] |} in
  emitGlobals (ForPreExecute I) I.

(** [ExecutionEngine *Interpreter::create(std::unique_ptr<Module> M,
    bool preExecute, std::string *ErrStr)].  [ErrStr] is [None] for a null
    pointer and [Some s] for a pointer to a string that holds [s]; the
    result is the returned pointer ([None] for [nullptr]) and the string
    behind [ErrStr] after the call. *)
Definition create (M : LModule) (preExecute : bool) (ErrStr : option string)
  : option t * option string :=
  let '(EC, M) := materializeAllPermanently M in
  if ec_bool EC then
    let ErrStr :=
      match ErrStr with
      | Some _ => Some (ec_message EC)
      | None => None
      end in
    (None, ErrStr)
  else
    (Some (construct M preExecute), ErrStr).

(** The loop [for (i = 0; i < ArgCount; ++i) ActualArgs.push_back(ArgValues[i])],
    with [remaining = ArgCount - i]. *)
Fixpoint copyArgs (ArgValues : list GenericValue) (remaining : nat) (i : nat)
    (ActualArgs : list GenericValue) : outcome (list GenericValue) :=
  match remaining with
  | O => Ok ActualArgs
  | S remaining =>
      match ArgValues !! i with
      | None => Undefined
      | Some v => copyArgs ArgValues remaining (S i) (ActualArgs ++ [v])
      end
  end.

(** [GenericValue Interpreter::runFunction(Function *F,
    const std::vector<GenericValue> &ArgValues)]; the result is the
    returned value and the interpreter after the call. *)
Definition runFunction (F : option Function) (ArgValues : list GenericValue) (I : t)
  : outcome (GenericValue * t) :=
  match F with
  | None => AssertFail "Function *F was null at entry to run()"
  | Some F =>
      let ArgCount := getNumParams F in
      ActualArgs ← copyArgs ArgValues ArgCount 0%nat [];
      let I := callFunction F ActualArgs I in
      let I := run I in
      Ok (ExitValue I, I)
  end.

Definition set_AtExitHandlers (hs : list Function) (I : t) : t :=
  {| Modules := Modules I;
     ForPreExecute := ForPreExecute I;
     CleanAbort := CleanAbort I;
     MemoryAllocator := MemoryAllocator I;
     FunctionAddresses := FunctionAddresses I;
     ExitValue := ExitValue I;
     AtExitHandlers := hs;
     Execution := Execution I |}.

(** [AtExitHandlers.pop_back()]: undefined on an empty vector. *)
Definition pop_back (I : t) : outcome t :=
  match AtExitHandlers I with
  | [] => Undefined
  | hs => Ok (set_AtExitHandlers (removelast hs) I)
  end.

(** One turn of the loop of [runAtExitHandlers] on the handler [h] when
    [callFunction] leaves [AtExitHandlers] non-empty. *)
Definition atExitTurn (I : t) (h : Function) : t :=
  let I := callFunction h [] I in
  run (set_AtExitHandlers (removelast (AtExitHandlers I)) I).

(** [void Interpreter::runAtExitHandlers()]: while the vector is not empty,
    call its last handler without arguments, pop the vector, run.  [fuel]
    bounds the turns of the loop; [None] says the bound was reached. *)
Fixpoint runAtExitHandlers (fuel : nat) (I : t) : option (outcome t) :=
  match fuel with
  | O => None
  | S fuel =>
      match last (AtExitHandlers I) with
      | None => Some (Ok I)
      | Some h =>
          let I := callFunction h [] I in
          match pop_back I with
          | Ok I' => runAtExitHandlers fuel (run I')
          | AssertFail msg => Some (AssertFail msg)
          | Undefined => Some Undefined
          end
      end
  end.

End WithModule.

Arguments t : clear implicits.

(** An interpreter whose [callFunction] only notes the call, on top of
    [Execution], and whose [run] does nothing. *)
Definition noteCall (F : Function) (args : list GenericValue) (I : t unit) : t unit :=
  {| Modules := Modules I;
     ForPreExecute := ForPreExecute I;
     CleanAbort := CleanAbort I;
     MemoryAllocator := MemoryAllocator I;
     FunctionAddresses := FunctionAddresses I;
     ExitValue := ExitValue I;
     AtExitHandlers := AtExitHandlers I;
     Execution := (F, args) :: Execution I |}.

Definition handlerA : Function :=
  {| getName := "flush"; getSection := ""; getNumParams := 0 |}.

Definition handlerB : Function :=
  {| getName := "close"; getSection := ""; getNumParams := 0 |}.

(** [handlerA] was registered before [handlerB]. *)
Definition twoHandlers : t unit :=
  {| Modules := [tt];
     ForPreExecute := false;
     CleanAbort := false;
     MemoryAllocator := DefaultAllocator;
     FunctionAddresses := DefaultFunctionMap;
     ExitValue := GV_Untyped 0;
     AtExitHandlers := [handlerA; handlerB];
     Execution := [] |}.

End Interpreter.

(** ** [CallGlobalConstructorsOnStartPass] ([CheerpWasmBackend.cpp]) *)

Inductive Instruction : Type :=
| CallInst (F : Function)
| ReturnInst (v : option Constant).

Record BasicBlock : Type := mkBlock {
  bb_name : string;
  bb_instructions : list Instruction
}.

Inductive Linkage : Type := ExternalLinkage | InternalLinkage.

Record FunctionDef : Type := mkFunctionDef {
  fd_function : Function;
  fd_linkage : Linkage;
  fd_blocks : list BasicBlock
}.

Inductive Metadata : Type :=
| ConstantAsMetadata (c : Constant).

(** [llvm::Module]: its functions in order, the operands of the initializer
    of [llvm.global_ctors] (what [cheerp::ModuleGlobalConstructors] returns),
    and its named metadata, each a list of nodes. *)
Record LModule : Type := mkModule {
  functionList : list FunctionDef;
  ModuleGlobalConstructors : list Constant;
  namedMetadata : gmap string (list (list Metadata))
}.

Module CallGlobalConstructorsOnStartPass.

(** [cs->getAggregateElement(1)] *)
Definition getAggregateElement (elts : list Constant) (i : nat) : option Constant :=
  elts !! i.

(** One turn of the loop over the operands: the call to append, if any. *)
Definition visitOperand (it : Constant) : outcome (option Instruction) :=
  match it with
  | ConstantStruct elts =>
      match getAggregateElement elts 1 with
      | Some (FunctionValue F) =>
          if decide (getSection F ≠ "asmjs") then Ok None
          else Ok (Some (CallInst F))
      | _ => AssertFail "isa<Function>(cs->getAggregateElement(1))"
      end
  | _ => AssertFail "isa<ConstantStruct>(it)"
  end.

(** The loop: the block's instructions after each operand. *)
Fixpoint visitOperands (ops : list Constant) (block : list Instruction)
  : outcome (list Instruction) :=
  match ops with
  | [] => Ok block
  | it :: ops =>
      c ← visitOperand it;
      visitOperands ops (match c with Some i => block ++ [i] | None => block end)
  end.

(** [Function::Create(fTy, Function::InternalLinkage, "_start", &M)] with
    [fTy = void()] and [stub->setSection("asmjs")] *)
Definition stub : Function :=
  {| getName := "_start"; getSection := "asmjs"; getNumParams := 0 |}.

(** [bool runOnModule(Module &M)], under the option [WasmLoader]: the
    returned flag and the module after the pass. *)
Definition runOnModule (WasmLoader : string) (M : LModule) : outcome (bool * LModule) :=
  if decide (WasmLoader ≠ "") then Ok (false, M)
  else
    let constructors := ModuleGlobalConstructors M in
    match constructors with
    | [] => Ok (false, M)
    | _ =>
        block ← visitOperands constructors [];
        let block := block ++ [ReturnInst None] in
        let def := {| fd_function := stub; fd_linkage := InternalLinkage;
                      fd_blocks := [ {| bb_name := "entry"; bb_instructions := block |} ] |} in
        match namedMetadata M !! "jsexported_methods" with
        | None => AssertFail "create jsexported_methods metadata node"
        | Some node =>
            let node := node ++ [ [ConstantAsMetadata (FunctionValue stub)] ] in
            Ok (false,
                {| functionList := functionList M ++ [def];
                   ModuleGlobalConstructors := ModuleGlobalConstructors M;
                   namedMetadata := <["jsexported_methods" := node]> (namedMetadata M) |})
        end
    end.

(** The functions a block calls, in the order of its call instructions. *)
Definition callees (block : list Instruction) : list Function :=
  omap (fun i => match i with CallInst F => Some F | _ => None end) block.

(** The function of a well-formed entry of [llvm.global_ctors]. *)
Definition ctorFunction (c : Constant) : option Function :=
  match c with
  | ConstantStruct elts =>
      match elts !! 1%nat with
      | Some (FunctionValue F) => Some F
      | _ => None
      end
  | _ => None
  end.

(** The constructors of a list of well-formed entries, in the order of the
    entries. *)
Definition ctorFunctions (ops : list Constant) : list Function := omap ctorFunction ops.

Definition inAsmjs (F : Function) : bool := bool_decide (getSection F = "asmjs").

(** A module with three constructors, the second outside the asmjs
    section. *)
Definition ctorEntry (F : Function) : Constant :=
  ConstantStruct [ConstantInt 4 65535; FunctionValue F; ConstantPointerNull].

Definition threeConstructors : LModule :=
  {| functionList := [];
     ModuleGlobalConstructors :=
       [ ctorEntry {| getName := "A"; getSection := "asmjs"; getNumParams := 0 |};
         ctorEntry {| getName := "G"; getSection := ""; getNumParams := 0 |};
         ctorEntry {| getName := "B"; getSection := "asmjs"; getNumParams := 0 |} ];
     namedMetadata := {[ "jsexported_methods" := [] ]} |}.

(** A module whose only constructor is outside the asmjs section. *)
Definition outsideAsmjs : LModule :=
  {| functionList := [];
     ModuleGlobalConstructors :=
       [ ctorEntry {| getName := "G"; getSection := ""; getNumParams := 0 |} ];
     namedMetadata := {[ "jsexported_methods" := [] ]} |}.

(** A module with a constructor and without the [jsexported_methods]
    metadata. *)
Definition withoutMetadata : LModule :=
  {| functionList := [];
     ModuleGlobalConstructors :=
       [ ctorEntry {| getName := "A"; getSection := "asmjs"; getNumParams := 0 |} ];
     namedMetadata := ∅ |}.

(** A module whose second entry of [llvm.global_ctors] is not a struct. *)
Definition illFormedEntry : LModule :=
  {| functionList := [];
     ModuleGlobalConstructors :=
       [ ctorEntry {| getName := "A"; getSection := "asmjs"; getNumParams := 0 |};
         ConstantInt 4 0 ];
     namedMetadata := {[ "jsexported_methods" := [] ]} |}.

End CallGlobalConstructorsOnStartPass.

(** ** The store listener and the store recorder *)

Module ExecutionEngine.

Section WithWorld.

(** What a store listener acts on. *)
Context {World : Type}.

(** The field [StoreListener], a pointer to a function of the stored
    address ([None] for a null pointer). *)
Record t : Type := mk {
  StoreListener : option (Z -> World -> World)
}.

(** [InstallStoreListener(P)]: [StoreListener = P] *)
Definition InstallStoreListener (P : option (Z -> World -> World)) (EE : t) : t :=
  {| StoreListener := P |}.

(** Modelled from the spec: the code that performs a store
    ([StoreValueToMemory]) is in another file; as the execution
    capability promises, every write is reported to the installed
    listener, one call per store. *)
Definition reportStore (EE : t) (w : World) (Addr : Z) : World :=
  match StoreListener EE with
  | Some P => P Addr w
  | None => w
  end.

Definition reportStores (EE : t) (Addrs : list Z) (w : World) : World :=
  fold_left (reportStore EE) Addrs w.

End WithWorld.

Arguments t : clear implicits.

End ExecutionEngine.

Module StoreRecorder.

(** Modelled from the spec: [PreExecute::recordStore] is only declared in
    [PreExecute.h].  One pre-execution session holds the pass and the
    StoreLog, the set of addresses written during the run; [recordStore]
    adds the address to the log and does nothing else. *)
Record Session : Type := mk {
  pass : PreExecute.t;
  StoreLog : gset Z
}.

Definition recordStore (Addr : Z) (s : Session) : Session :=
  {| pass := pass s; StoreLog := {[Addr]} ∪ StoreLog s |}.

(** The engine of a session: the recorder installed as the store listener of
    an engine that had none. *)
Definition engine : ExecutionEngine.t Session :=
  ExecutionEngine.InstallStoreListener (Some recordStore)
    {| ExecutionEngine.StoreListener := None |}.

(** A run that performs the stores [Addrs], in this order. *)
Definition execute (Addrs : list Z) (s : Session) : Session :=
  ExecutionEngine.reportStores engine Addrs s.

End StoreRecorder.

(** ** The constant reconstructor and the commit of its results *)

Module Reconstructor.

Inductive ReconError : Type :=
| UnresolvablePointer
| TypeMismatch
| LayoutInconsistency
| IndirectionBudget.

Inductive recon (A : Type) : Type :=
| Built (a : A)
| Failed (e : ReconError).

Arguments Built {A} a.
Arguments Failed {A} e.

Definition isBuilt {A : Type} (r : recon A) : bool :=
  match r with Built _ => true | Failed _ => false end.

Definition recon_map {A B : Type} (f : A -> B) (r : recon A) : recon B :=
  match r with Built a => Built (f a) | Failed e => Failed e end.

Section WithSession.

(** The data layout's pointer size, the bytes of the sandbox, the address
    map, the typed-allocation tracker, the address space
    ([asmjs]: restricted), and what an external pointer becomes outside
    a restricted address space, on which the spec is silent. *)
Variable pointerBytes : nat.
Variable memory : gmap Z Z.
Variable addressMap : gmap Z AddressMapEntry.
Variable typedAllocations : gmap Z AllocData.
Variable asmjs : bool.
Variable externalPointer : Z -> recon Constant.

Fixpoint sizeOf (T : LType) : Z :=
  match T with
  | IntegerTy n | FloatTy n => Z.of_nat n
  | PointerTy _ => Z.of_nat pointerBytes
  | ArrayTy elt n => Z.of_nat n * sizeOf elt
  | StructTy bytes _ => bytes
  end.

Definition loadByte (a : Z) : Z := default 0 (memory !! a).

(** [n] bytes at [addr], least significant first. *)
Fixpoint readBytes (addr : Z) (n : nat) : Z :=
  match n with
  | O => 0
  | S n => loadByte addr + 256 * readBytes (addr + 1) n
  end.

(** Modelled from the spec: step 3 of the reconstruction algorithm.
    [follow], when there is budget left, reconstructs the region of a
    typed allocation. *)
Definition resolvePointer (follow : option (LType -> Z -> recon Constant)) (raw : Z)
  : recon Constant :=
  match AddressMapBase.resolve addressMap raw with
  | Some (start, e) =>
      match entry_global e with
      | Some g => Built (GlobalRef g (raw - start))
      | None =>
          match typedAllocations !! start with
          | Some {| allocType := Some T |} =>
              match follow with
              | Some follow =>
                  recon_map (fun init => SynthRef start init (raw - start)) (follow T start)
              | None => Failed IndirectionBudget
              end
          | _ => Failed TypeMismatch
          end
      end
  | None =>
      if raw =? 0 then Built ConstantPointerNull
      else if asmjs then Failed UnresolvablePointer
      else externalPointer raw
  end.

(** Step 4: [n] elements from [addr] on, [stride] bytes apart. *)
Fixpoint buildArray (f : Z -> recon Constant) (stride addr : Z) (n : nat)
  : recon (list Constant) :=
  match n with
  | O => Built []
  | S n =>
      match f addr with
      | Failed e => Failed e
      | Built c =>
          match buildArray f stride (addr + stride) n with
          | Failed e => Failed e
          | Built cs => Built (c :: cs)
          end
      end
  end.

Section Fields.

(** Step 5: the fields of a struct at [Addr], each at its offset. *)
Variable f : LType -> Z -> recon Constant.
Variable Addr : Z.

Fixpoint buildFields (fs : list (Z * LType)) : recon (list Constant) :=
  match fs with
  | [] => Built []
  | (off, T) :: fs =>
      match f T (Addr + off) with
      | Failed e => Failed e
      | Built c =>
          match buildFields fs with
          | Failed e => Failed e
          | Built cs => Built (c :: cs)
          end
      end
  end.

End Fields.

(** Steps 1 to 5, by the shape of the type. *)
Fixpoint reconstruct (follow : option (LType -> Z -> recon Constant))
    (memType : LType) (Addr : Z) : recon Constant :=
  match memType with
  | IntegerTy n => Built (ConstantInt n (readBytes Addr n))
  | FloatTy n => Built (ConstantFP n (readBytes Addr n))
  | PointerTy _ => resolvePointer follow (readBytes Addr pointerBytes)
  | ArrayTy elt n =>
      recon_map ConstantArray (buildArray (reconstruct follow elt) (sizeOf elt) Addr n)
  | StructTy _ fields =>
      recon_map ConstantStruct (buildFields (reconstruct follow) Addr fields)
  end.

(** The byte offsets, within a value of a type, of its pointer-typed parts:
    those that a reconstruction of the value reads without following a
    pointer. *)
Inductive pointerSlot : LType -> Z -> Prop :=
| slot_pointer (T : LType) : pointerSlot (PointerTy T) 0
| slot_array (elt : LType) (n i : nat) (off : Z) :
    (i < n)%nat -> pointerSlot elt off ->
    pointerSlot (ArrayTy elt n) (Z.of_nat i * sizeOf elt + off)
| slot_struct (bytes : Z) (fields : list (Z * LType)) (foff : Z) (T : LType) (off : Z) :
    (foff, T) ∈ fields -> pointerSlot T off ->
    pointerSlot (StructTy bytes fields) (foff + off).

(** Modelled from the spec: [computeInitializerFromMemory] is only
    declared in [PreExecute.h].  [budget] bounds the pointer indirections
    into typed allocations that one reconstruction follows. *)
Fixpoint computeInitializerFromMemory (budget : nat) (memType : LType) (Addr : Z)
  : recon Constant :=
  reconstruct
    (match budget with
     | O => None
     | S budget => Some (computeInitializerFromMemory budget)
     end) memType Addr.

(** *** Committing *)

Record GlobalSlot : Type := mkSlot {
  declaredType : LType;
  initializer : Constant
}.

(** The compilation unit: its globals and the constructor calls of its
    load-time entry point. *)
Record CompilationUnit : Type := mkUnit {
  globals : gmap GlobalVariable GlobalSlot;
  constructorCalls : list string
}.

(** Where the engine keeps each global. *)
Variable globalAddress : GlobalVariable -> option Z.

Definition reconstructGlobal (budget : nat) (cu : CompilationUnit) (g : GlobalVariable)
  : recon Constant :=
  match globals cu !! g, globalAddress g with
  | Some slot, Some addr => computeInitializerFromMemory budget (declaredType slot) addr
  | _, _ => Failed LayoutInconsistency
  end.

Definition setInitializer (c : Constant) (slot : GlobalSlot) : GlobalSlot :=
  {| declaredType := declaredType slot; initializer := c |}.

(** A reconstructed global gets its new initializer; a failed one keeps
    what it has. *)
Definition commitGlobal (gs : gmap GlobalVariable GlobalSlot)
    (gr : GlobalVariable * recon Constant) : gmap GlobalVariable GlobalSlot :=
  match snd gr with
  | Built c => alter (setInitializer c) (fst gr) gs
  | Failed _ => gs
  end.

(** Modelled from the spec: the Committing step for one constructor
    [ctor] and the globals its stores touched.  The call of [ctor] is
    elided only when every touched global was reconstructed. *)
Definition commit (budget : nat) (ctor : string) (touched : list GlobalVariable)
    (cu : CompilationUnit) : CompilationUnit :=
  let results := (fun g => (g, reconstructGlobal budget cu g)) <$> touched in
  {| globals := fold_left commitGlobal results (globals cu);
     constructorCalls :=
       if forallb (fun gr => isBuilt (snd gr)) results
       then List.filter (fun c => negb (String.eqb c ctor)) (constructorCalls cu)
       else constructorCalls cu |}.

End WithSession.

(** A global [g] of type [{ i32, i8* }] at 1024, whose first field holds 42
    and whose second field holds the address 65536, in no registered region;
    pointers have four bytes. *)
Definition exampleType : LType :=
  StructTy 8 [(0, IntegerTy 4); (4, PointerTy (IntegerTy 1))].

Definition exampleMemory : gmap Z Z :=
  list_to_map [(1024, 42); (1025, 0); (1026, 0); (1027, 0);
               (1028, 0); (1029, 0); (1030, 1); (1031, 0)].

Definition exampleAddressMap : gmap Z AddressMapEntry :=
  {[ 1024 := {| entry_length := 8; entry_global := Some "g" |} ]}.

Definition exampleSlot : GlobalSlot :=
  {| declaredType := exampleType;
     initializer := ConstantStruct [ConstantInt 4 0; ConstantPointerNull] |}.

Definition exampleUnit : CompilationUnit :=
  {| globals := {[ "g" := exampleSlot ]}; constructorCalls := ["ctor_g"] |}.

Definition exampleGlobalAddress (g : GlobalVariable) : option Z :=
  if decide (g = "g") then Some 1024 else None.

End Reconstructor.

(** ** A pre-execution session, as the calls the interpreted code causes *)

Module Session.

(** The interpreted code allocates through the allocator, has the type of
    an allocation recorded, and frees: a free reaches the pass as
    [releaseTypedAllocation]; [Allocator] has no call that gives one buffer
    back. *)
Inductive Event : Type :=
| Allocate (size memory : Z)
| RecordTyped (type : option LType) (size buf : Z)
| ReleaseTyped (buf : Z).

Definition set_allocator (a : Allocator.t) (p : PreExecute.t) : PreExecute.t :=
  {| PreExecute.allocator := Some a;
     PreExecute.modifiedGlobals := PreExecute.modifiedGlobals p;
     PreExecute.typedAllocations := PreExecute.typedAllocations p |}.

(** [allocator->allocate(size)] dereferences the [unique_ptr]. *)
Definition step (p : PreExecute.t) (ev : Event) : outcome PreExecute.t :=
  match ev with
  | Allocate size memory =>
      match PreExecute.allocator p with
      | None => Undefined
      | Some a => Ok (set_allocator (snd (Allocator.allocate size memory a)) p)
      end
  | RecordTyped type size buf => PreExecute.recordTypedAllocation type size buf p
  | ReleaseTyped buf => PreExecute.releaseTypedAllocation buf p
  end.

Fixpoint run (evs : list Event) (p : PreExecute.t) : outcome PreExecute.t :=
  match evs with
  | [] => Ok p
  | ev :: evs => p ← step p ev; run evs p
  end.

(** The addresses the [Allocate] events of a trace returned. *)
Definition allocated (evs : list Event) : list Z :=
  omap (fun ev => match ev with Allocate _ memory => Some memory | _ => None end) evs.

(** The number of frees in a trace. *)
Definition frees (evs : list Event) : nat :=
  length (List.filter (fun ev => match ev with ReleaseTyped _ => true | _ => false end) evs).

(** The size given for [buf] is the size of the region registered at [buf]. *)
Definition sizeConsistent (p : PreExecute.t) (buf size : Z) : Prop :=
  exists e, PreExecute.addressMap p !! buf = Some e /\ entry_length e = size.

(** A pass whose allocator has served [allocate(8)] at address 4096. *)
Definition afterOneAllocation : PreExecute.t :=
  {| PreExecute.allocator := Some (snd (Allocator.allocate 8 4096 (Allocator.init ∅)));
     PreExecute.modifiedGlobals := ∅;
     PreExecute.typedAllocations := ∅ |}.

(** A pass that holds one record, for the allocation at 4096. *)
Definition withOneRecord : PreExecute.t :=
  {| PreExecute.allocator := None;
     PreExecute.modifiedGlobals := ∅;
     PreExecute.typedAllocations :=
       {[ 4096 := {| globalValue := None; allocType := Some (IntegerTy 4); size := 8 |} ]} |}.

(** Three allocations, two of them typed, one of them freed. *)
Definition threeAllocations : list Event :=
  [ Allocate 8 4096; RecordTyped (Some (IntegerTy 4)) 8 4096;
    Allocate 16 8192; Allocate 0 12288;
    RecordTyped (Some (FloatTy 8)) 16 8192; ReleaseTyped 4096 ].

(** A pass with a new allocator over an address map that holds one global. *)
Definition freshPass : PreExecute.t :=
  {| PreExecute.allocator :=
       Some (Allocator.init {[ 1024 := {| entry_length := 4; entry_global := Some "g" |} ]});
     PreExecute.modifiedGlobals := ∅;
     PreExecute.typedAllocations := ∅ |}.

End Session.

(** * Properties *)

(** ** The allocator *)

Section AllocatorFacts.

Import Allocator.

Lemma size_t_add_small (s : Z) :
  0 <= s < size_t_modulus - 4 -> size_t_add s 4 = s + 4.
Proof.
  intros Hs. unfold size_t_add. apply Z.mod_small.
  unfold size_t_modulus in *. lia.
Qed.

Lemma unmap_all_lookup_in (bufs : list (Z * Z)) (m : gmap Z AddressMapEntry) (p : Z) :
  p ∈ bufs.*1 -> unmap_all bufs m !! p = None.
Proof.
  unfold unmap_all. revert m.
  induction bufs as [|[q n] bufs IH] using rev_ind; intros m Hin.
  - by apply elem_of_nil in Hin.
  - rewrite fold_left_app. cbn. unfold AddressMapBase.unmap.
    rewrite fmap_app in Hin. apply elem_of_app in Hin as [Hin|Hin].
    + destruct (decide (q = p)) as [->|Hne].
      * apply lookup_delete_eq.
      * rewrite lookup_delete_ne by done. by apply IH.
    + cbn in Hin. apply list_elem_of_singleton in Hin as ->.
      apply lookup_delete_eq.
Qed.

Lemma unmap_all_lookup_notin (bufs : list (Z * Z)) (m : gmap Z AddressMapEntry) (p : Z) :
  p ∉ bufs.*1 -> unmap_all bufs m !! p = m !! p.
Proof.
  unfold unmap_all. revert m.
  induction bufs as [|[q n] bufs IH]; intros m Hnin; [done|].
  cbn in *. apply not_elem_of_cons in Hnin as [Hne Hnin].
  rewrite IH by done. unfold AddressMapBase.unmap. by rewrite lookup_delete_ne.
Qed.

Lemma registered_after_allocate (size memory : Z) (a : t) (b : Z) :
  AddressMapBase.inside memory
    {| entry_length := size_t_add size 4; entry_global := None |} b = true ->
  AddressMapBase.registered (mapping (snd (allocate size memory a))) b.
Proof.
  intros Hin. exists memory, {| entry_length := size_t_add size 4; entry_global := None |}.
  split; [|done]. cbn. unfold AddressMapBase.map. apply lookup_insert_eq.
Qed.

(** C2, as stated, fails: after [allocate(8)] has returned 4096 to an
    allocator with an empty address map, the registered bytes are not
    exactly those of [4096, 4096 + 8): byte 4104 is registered too. *)
Lemma allocate_registers_beyond_size :
  ~ (forall b : Z,
       AddressMapBase.registered
         (mapping (snd (allocate 8 4096 (init ∅)))) b <-> 4096 <= b < 4096 + 8).
Proof.
  intros H. destruct (H 4104) as [H1 _].
  assert (4096 <= 4104 < 4096 + 8) as Hb; [|lia].
  apply H1, registered_after_allocate. reflexivity.
Qed.

(** C2, amended: [allocate(size)] returns the address of the new buffer,
    which backs [size] bytes and is appended to the allocator's buffers, and
    registers one region at that address, an allocation of [size + 4] bytes:
    the bytes registered at the address are exactly those of
    [address, address + size + 4), and every other entry of the address map
    is as before. *)
Theorem allocate_registers_size_plus_4 (size memory : Z) (a : t) :
  0 <= size < size_t_modulus - 4 ->
  fst (allocate size memory a) = memory /\
  allocations (snd (allocate size memory a)) = allocations a ++ [(memory, size)] /\
  mapping (snd (allocate size memory a)) !! memory
    = Some {| entry_length := size + 4; entry_global := None |} /\
  (forall b e, mapping (snd (allocate size memory a)) !! memory = Some e ->
     (AddressMapBase.inside memory e b = true <-> memory <= b < memory + size + 4)) /\
  (forall k, k ≠ memory ->
     mapping (snd (allocate size memory a)) !! k = mapping a !! k).
Proof.
  intros Hs. cbn. unfold AddressMapBase.map.
  rewrite size_t_add_small by done. rewrite lookup_insert_eq.
  split; [done|]. split; [done|]. split; [done|]. split.
  - intros b e [= <-]. unfold AddressMapBase.inside. cbn. lia.
  - intros k Hk. by rewrite lookup_insert_ne.
Qed.

Lemma allocate_registers_size_plus_4_witness :
  fst (allocate 8 4096 (init ∅)) = 4096 /\
  allocations (snd (allocate 8 4096 (init ∅))) = [(4096, 8)] /\
  mapping (snd (allocate 8 4096 (init ∅))) !! 4096
    = Some {| entry_length := 12; entry_global := None |}.
Proof.
  destruct (allocate_registers_size_plus_4 8 4096 (init ∅)) as (H1 & H2 & H3 & _).
  - unfold size_t_modulus. lia.
  - exact (conj H1 (conj H2 H3)).
Defined.

(** What [deallocate] leaves: no buffer, no region at the address of a buffer
    the allocator owned, and every other entry of the address map. *)
Lemma deallocate_spec (a : t) :
  allocations (deallocate a) = [] /\
  (forall p, p ∈ outstanding a -> mapping (deallocate a) !! p = None) /\
  (forall p, p ∉ outstanding a -> mapping (deallocate a) !! p = mapping a !! p).
Proof.
  unfold deallocate, outstanding. cbn. split; [done|]. split; intros p Hp.
  - by apply unmap_all_lookup_in.
  - by apply unmap_all_lookup_notin.
Qed.

End AllocatorFacts.

(** ** The typed-allocation tracker *)

Section TrackerFacts.

Import PreExecute.

Lemma set_typedAllocations_same (p : t) :
  set_typedAllocations (typedAllocations p) p = p.
Proof. by destruct p. Qed.

Lemma std_map_insert_present (k : Z) (v d : AllocData) (m : gmap Z AllocData) :
  m !! k = Some d -> std_map_insert k v m = m.
Proof. intros H. unfold std_map_insert. by rewrite H. Qed.

Lemma std_map_insert_lookup (k : Z) (v : AllocData) (m : gmap Z AllocData) :
  std_map_insert k v m !! k = Some (default v (m !! k)).
Proof.
  unfold std_map_insert. destruct (m !! k) as [d|] eqn:H; cbn.
  - done.
  - apply lookup_insert_eq.
Qed.

Lemma std_map_insert_lookup_ne (k k' : Z) (v : AllocData) (m : gmap Z AllocData) :
  k' ≠ k -> std_map_insert k v m !! k' = m !! k'.
Proof.
  intros Hne. unfold std_map_insert. destruct (m !! k); [done|].
  by rewrite lookup_insert_ne.
Qed.

(** C3, as stated, fails: the region registered at 4096 has 12 bytes (it
    comes from [allocate(8)]), the call gives the size 999, which is neither
    the 12 registered bytes nor the 8 asked for, and the call is not
    rejected. *)
Lemma recordTypedAllocation_accepts_any_size :
  ~ (is_Ok (recordTypedAllocation (Some (IntegerTy 4)) 999 4096 Session.afterOneAllocation)
       = false
     <-> ~ Session.sizeConsistent Session.afterOneAllocation 4096 999).
Proof.
  intros [_ H]. enough (true = false) by done. apply H.
  intros (e & He & Hlen). unfold Session.afterOneAllocation, addressMap in He.
  cbn in He. unfold AddressMapBase.map in He. rewrite lookup_insert_eq in He.
  injection He as <-. vm_compute in Hlen. discriminate.
Qed.

(** C3, amended: [recordTypedAllocation(type, size, address)] never rejects
    a record and compares no size with the address map; it touches nothing but
    the tracker, where the address afterwards holds the record it already had
    or, when it had none, the given type and size, and every other address
    holds what it held. *)
Theorem recordTypedAllocation_never_rejects
    (type : option LType) (size buf : Z) (p : t) :
  exists p', recordTypedAllocation type size buf p = Ok p' /\
    allocator p' = allocator p /\
    modifiedGlobals p' = modifiedGlobals p /\
    typedAllocations p' !! buf
      = Some (default {| globalValue := None; allocType := type; size := size |}
                (typedAllocations p !! buf)) /\
    (forall k, k ≠ buf -> typedAllocations p' !! k = typedAllocations p !! k).
Proof.
  eexists. split; [reflexivity|]. cbn. split; [done|]. split; [done|]. split.
  - apply std_map_insert_lookup.
  - intros k Hk. by apply std_map_insert_lookup_ne.
Qed.

(** C5: [releaseTypedAllocation(address)] fails its assertion exactly when
    the tracker holds no record for the address; when it holds one, the call
    succeeds and removes that record and no other, and touches nothing else
    of the pass. *)
Theorem releaseTypedAllocation_spec (buf : Z) (p : t) :
  (is_AssertFail (releaseTypedAllocation buf p) = true
     <-> typedAllocations p !! buf = None) /\
  (forall d, typedAllocations p !! buf = Some d ->
     exists p', releaseTypedAllocation buf p = Ok p' /\
       typedAllocations p' = delete buf (typedAllocations p) /\
       typedAllocations p' !! buf = None /\
       (forall k, k ≠ buf -> typedAllocations p' !! k = typedAllocations p !! k) /\
       allocator p' = allocator p /\
       modifiedGlobals p' = modifiedGlobals p).
Proof.
  unfold releaseTypedAllocation. split.
  - destruct (typedAllocations p !! buf); cbn; split; done.
  - intros d ->. eexists. split; [reflexivity|]. cbn.
    split; [done|]. split; [apply lookup_delete_eq|]. split; [|done].
    intros k Hk. by rewrite lookup_delete_ne.
Qed.

(** C8: when the address already has a record, [recordTypedAllocation] for
    that address, with any type and size, succeeds and leaves the pass as it
    was, so the first record is retained; recording twice is recording
    once. *)
Theorem recordTypedAllocation_existing_unchanged
    (type type0 : option LType) (size size0 buf : Z) (d : AllocData) (p : t) :
  typedAllocations p !! buf = Some d ->
  recordTypedAllocation type size buf p = Ok p /\
  (recordTypedAllocation type0 size0 buf p ≫= recordTypedAllocation type size buf)
    = recordTypedAllocation type0 size0 buf p.
Proof.
  intros Hd.
  assert (forall ty sz, recordTypedAllocation ty sz buf p = Ok p) as Hsame.
  { intros ty sz. unfold recordTypedAllocation.
    rewrite (std_map_insert_present _ _ d) by done.
    by rewrite set_typedAllocations_same. }
  split; [apply Hsame|]. rewrite (Hsame type0 size0). cbn. apply Hsame.
Qed.

Lemma recordTypedAllocation_existing_unchanged_witness :
  recordTypedAllocation (Some (FloatTy 8)) 64 4096 Session.withOneRecord
    = Ok Session.withOneRecord.
Proof.
  exact (proj1 (recordTypedAllocation_existing_unchanged
                  (Some (FloatTy 8)) None 64 0 4096 _ Session.withOneRecord
                  (lookup_singleton_eq _ _))).
Defined.

(** Recording twice at one address is recording once, whatever the tracker
    held before. *)
Lemma recordTypedAllocation_twice
    (type type0 : option LType) (size size0 buf : Z) (p : t) :
  (recordTypedAllocation type0 size0 buf p ≫= recordTypedAllocation type size buf)
    = recordTypedAllocation type0 size0 buf p.
Proof.
  unfold recordTypedAllocation. cbn. f_equal.
  unfold set_typedAllocations. cbn. f_equal.
  unfold std_map_insert at 1. by rewrite std_map_insert_lookup.
Qed.

End TrackerFacts.

(** ** A session's allocations and their release *)

Section SessionFacts.

Import Session.

Lemma step_allocator (ev : Event) (p p' : PreExecute.t) (a : Allocator.t) :
  PreExecute.allocator p = Some a ->
  step p ev = Ok p' ->
  exists a', PreExecute.allocator p' = Some a' /\
    Allocator.outstanding a' = Allocator.outstanding a ++ allocated [ev].
Proof.
  intros Ha Hstep. destruct ev as [sz mem|ty sz buf|buf]; cbn in Hstep.
  - rewrite Ha in Hstep. injection Hstep as <-. eexists. split; [reflexivity|].
    unfold Allocator.outstanding. cbn. by rewrite fmap_app.
  - injection Hstep as <-. exists a. split; [done|]. cbn. by rewrite app_nil_r.
  - unfold PreExecute.releaseTypedAllocation in Hstep.
    destruct (PreExecute.typedAllocations p !! buf); [|done].
    injection Hstep as <-. exists a. split; [done|]. cbn. by rewrite app_nil_r.
Qed.

Lemma run_allocator (evs : list Event) (p p' : PreExecute.t) (a : Allocator.t) :
  PreExecute.allocator p = Some a ->
  run evs p = Ok p' ->
  exists a', PreExecute.allocator p' = Some a' /\
    Allocator.outstanding a' = Allocator.outstanding a ++ allocated evs.
Proof.
  revert p a. induction evs as [|ev evs IH]; intros p a Ha Hrun; cbn in Hrun.
  - injection Hrun as <-. exists a. split; [done|]. cbn. by rewrite app_nil_r.
  - destruct (step p ev) as [p1| |] eqn:Hstep; cbn in Hrun; [|done..].
    destruct (step_allocator _ _ _ _ Ha Hstep) as (a1 & Ha1 & Hout1).
    destruct (IH _ _ Ha1 Hrun) as (a' & Ha' & Hout').
    exists a'. split; [done|]. rewrite Hout', Hout1, <- app_assoc. f_equal.
    unfold allocated. cbn. by destruct ev.
Qed.

(** C4: after any trace of allocations, type records and frees that a session
    ran, with as many frees as there may be, [Allocator::deallocate] (and so
    the destructor) leaves the allocator without a buffer, and the address map
    without a region at any address this allocator handed out, in the trace or
    before it; it registers nothing. *)
Theorem deallocate_releases_every_region
    (evs : list Event) (p p' : PreExecute.t) (a : Allocator.t) :
  PreExecute.allocator p = Some a ->
  run evs p = Ok p' ->
  exists a', PreExecute.allocator p' = Some a' /\
    Allocator.destroy a' = Allocator.deallocate a' /\
    Allocator.allocations (Allocator.deallocate a') = [] /\
    (forall addr, addr ∈ Allocator.outstanding a ++ allocated evs ->
       Allocator.mapping (Allocator.deallocate a') !! addr = None) /\
    (forall addr, Allocator.mapping (Allocator.deallocate a') !! addr = None \/
       Allocator.mapping (Allocator.deallocate a') !! addr = Allocator.mapping a' !! addr).
Proof.
  intros Ha Hrun. destruct (run_allocator _ _ _ _ Ha Hrun) as (a' & Ha' & Hout).
  exists a'. split; [done|]. split; [done|].
  destruct (deallocate_spec a') as (Hnil & Hin & Hnin).
  split; [done|]. split.
  - intros addr Haddr. apply Hin. by rewrite Hout.
  - intros addr. destruct (decide (addr ∈ Allocator.outstanding a')); auto.
Qed.

Lemma deallocate_releases_every_region_witness :
  exists a', run threeAllocations freshPass = Ok
               {| PreExecute.allocator := Some a';
                  PreExecute.modifiedGlobals := ∅;
                  PreExecute.typedAllocations :=
                    {[ 8192 := {| globalValue := None; allocType := Some (FloatTy 8);
                                  size := 16 |} ]} |} /\
    frees threeAllocations = 1%nat /\
    Allocator.allocations (Allocator.deallocate a') = [] /\
    Allocator.mapping (Allocator.deallocate a') !! 4096 = None /\
    Allocator.mapping (Allocator.deallocate a') !! 8192 = None /\
    Allocator.mapping (Allocator.deallocate a') !! 12288 = None.
Proof.
  eexists. split; [vm_compute; reflexivity|]. split; [reflexivity|].
  edestruct (deallocate_releases_every_region threeAllocations freshPass)
    as (a' & Ha' & _ & Hnil & Hin & _); [reflexivity|vm_compute; reflexivity|].
  injection Ha' as <-. split; [exact Hnil|].
  repeat split; apply Hin; cbn; set_solver.
Defined.

End SessionFacts.

(** ** The interpreter's entry points *)

Section InterpreterFacts.

Import Interpreter.

Context {LModule : Type}.
Variable materializeAllPermanently : LModule -> error_code * LModule.
Variable emitGlobals : bool -> Interpreter.t LModule -> Interpreter.t LModule.
Variable callFunction :
  Function -> list GenericValue -> Interpreter.t LModule -> Interpreter.t LModule.
Variable run : Interpreter.t LModule -> Interpreter.t LModule.

Lemma copyArgs_spec (ArgValues : list GenericValue) (remaining i : nat)
    (ActualArgs : list GenericValue) :
  (i + remaining <= length ArgValues)%nat ->
  copyArgs ArgValues remaining i ActualArgs
    = Ok (ActualArgs ++ take remaining (drop i ArgValues)).
Proof.
  revert i ActualArgs. induction remaining as [|n IH]; intros i acc Hlen; cbn.
  - by rewrite take_0, app_nil_r.
  - destruct (ArgValues !! i) as [v|] eqn:Hv.
    + rewrite IH by lia. rewrite <- app_assoc. cbn.
      by rewrite (drop_S _ _ _ Hv).
    + apply lookup_ge_None in Hv. lia.
Qed.

(** With fewer arguments than parameters the loop reads past the end of
    [ArgValues]. *)
Lemma copyArgs_short (ArgValues : list GenericValue) (remaining i : nat)
    (ActualArgs : list GenericValue) :
  (i <= length ArgValues < i + remaining)%nat ->
  copyArgs ArgValues remaining i ActualArgs = Undefined.
Proof.
  revert i ActualArgs. induction remaining as [|n IH]; intros i acc Hlen; cbn; [lia|].
  destruct (ArgValues !! i) as [v|] eqn:Hv; [|done].
  apply lookup_lt_Some in Hv. apply IH. lia.
Qed.

(** C9: given at least as many arguments as [F]'s type has parameters,
    [runFunction] calls [F] with the first [getNumParams] of them and no other,
    runs the interpreter, and returns the exit value it then holds. *)
Theorem runFunction_passes_declared_arguments
    (F : Function) (ArgValues : list GenericValue) (I : Interpreter.t LModule) :
  (getNumParams F <= length ArgValues)%nat ->
  runFunction callFunction run (Some F) ArgValues I
    = Ok (ExitValue (run (callFunction F (take (getNumParams F) ArgValues) I)),
          run (callFunction F (take (getNumParams F) ArgValues) I)).
Proof.
  intros Hlen. unfold runFunction.
  rewrite copyArgs_spec by lia. cbn. by rewrite drop_0.
Qed.

(** C10: when materializing the module fails, [create] returns a null
    pointer, and the string behind [ErrStr] holds the message of the error
    when [ErrStr] is not null, and there is no string when it is null; when
    materializing succeeds, [create] returns the interpreter it constructed
    over the materialized module and leaves [ErrStr] alone. *)
Theorem create_spec (M : LModule) (preExecute : bool) (ErrStr : option string) :
  (ec_value (fst (materializeAllPermanently M)) ≠ 0 ->
     create materializeAllPermanently emitGlobals M preExecute ErrStr
       = (None, match ErrStr with
                | Some _ => Some (ec_message (fst (materializeAllPermanently M)))
                | None => None
                end)) /\
  (ec_value (fst (materializeAllPermanently M)) = 0 ->
     create materializeAllPermanently emitGlobals M preExecute ErrStr
       = (Some (construct emitGlobals (snd (materializeAllPermanently M)) preExecute),
          ErrStr)).
Proof.
  unfold create, ec_bool.
  destruct (materializeAllPermanently M) as [EC M']. cbn.
  split; intros HEC.
  - destruct (Z.eqb_spec (ec_value EC) 0); [done|]. done.
  - by rewrite HEC.
Qed.

End InterpreterFacts.

Lemma runFunction_passes_declared_arguments_witness :
  Interpreter.runFunction (LModule := unit)
    (fun F args I =>
       {| Interpreter.Modules := Interpreter.Modules I;
          Interpreter.ForPreExecute := Interpreter.ForPreExecute I;
          Interpreter.CleanAbort := Interpreter.CleanAbort I;
          Interpreter.MemoryAllocator := Interpreter.MemoryAllocator I;
          Interpreter.FunctionAddresses := Interpreter.FunctionAddresses I;
          Interpreter.ExitValue := Interpreter.ExitValue I;
          Interpreter.AtExitHandlers := Interpreter.AtExitHandlers I;
          Interpreter.Execution := (F, args) :: Interpreter.Execution I |})
    (fun I => I)
    (Some {| getName := "main"; getSection := ""; getNumParams := 2 |})
    [GV_Untyped 1; GV_Untyped 2; GV_Untyped 3]
    (Interpreter.construct (fun _ I => I) tt false)
  = Ok (GV_Untyped 0,
        {| Interpreter.Modules := [tt];
           Interpreter.ForPreExecute := false;
           Interpreter.CleanAbort := false;
           Interpreter.MemoryAllocator := DefaultAllocator;
           Interpreter.FunctionAddresses := DefaultFunctionMap;
           Interpreter.ExitValue := GV_Untyped 0;
           Interpreter.AtExitHandlers := [];
           Interpreter.Execution :=
             [({| getName := "main"; getSection := ""; getNumParams := 2 |},
               [GV_Untyped 1; GV_Untyped 2])] |}).
Proof.
  apply (runFunction_passes_declared_arguments (LModule := unit)). cbn. lia.
Defined.

(** ** The start function *)

Section StartFunctionFacts.

Import CallGlobalConstructorsOnStartPass.

Lemma visitOperand_wellformed (it : Constant) (F : Function) :
  ctorFunction it = Some F ->
  visitOperand it = Ok (if inAsmjs F then Some (CallInst F) else None).
Proof.
  unfold ctorFunction, visitOperand, getAggregateElement, inAsmjs.
  destruct it as [| | | | | | | |elts]; try done.
  destruct (elts !! 1%nat) as [[]|]; try done.
  intros [= ->]. destruct (decide (getSection F ≠ "asmjs")) as [Hne|Heq].
  - by rewrite bool_decide_eq_false_2.
  - apply dec_stable in Heq. by rewrite bool_decide_eq_true_2.
Qed.

Lemma visitOperands_wellformed (ops : list Constant) (block : list Instruction) :
  Forall (fun it => is_Some (ctorFunction it)) ops ->
  visitOperands ops block
    = Ok (block ++ (CallInst <$> List.filter inAsmjs (ctorFunctions ops))).
Proof.
  intros Hwf. revert block. induction Hwf as [|it ops [F HF] _ IH]; intros block; cbn.
  - by rewrite app_nil_r.
  - rewrite (visitOperand_wellformed _ _ HF). cbn.
    unfold ctorFunctions. cbn. rewrite HF. cbn. fold (ctorFunctions ops).
    destruct (inAsmjs F); rewrite IH.
    + by rewrite <- app_assoc.
    + done.
Qed.

Lemma callees_calls (Fs : list Function) :
  callees ((CallInst <$> Fs) ++ [ReturnInst None]) = Fs.
Proof.
  unfold callees. induction Fs as [|F Fs IH]; cbn; [done|]. by rewrite IH.
Qed.

(** C6: without a wasm loader, on a module whose [llvm.global_ctors] has at
    least one entry, all entries well-formed, and that has the
    [jsexported_methods] metadata, the pass appends one function, [_start],
    whose single block calls the constructors that are in the asmjs section,
    each once per entry and in the order of the entries, and then returns;
    nothing else is called in it. *)
Theorem start_function_calls_in_list_order (M : LModule) (node : list (list Metadata)) :
  ModuleGlobalConstructors M ≠ [] ->
  Forall (fun it => is_Some (ctorFunction it)) (ModuleGlobalConstructors M) ->
  namedMetadata M !! "jsexported_methods" = Some node ->
  exists M' block,
    runOnModule "" M = Ok (false, M') /\
    functionList M'
      = functionList M ++
        [ {| fd_function := stub; fd_linkage := InternalLinkage;
             fd_blocks := [ {| bb_name := "entry"; bb_instructions := block |} ] |} ] /\
    block = (CallInst <$> List.filter inAsmjs (ctorFunctions (ModuleGlobalConstructors M)))
              ++ [ReturnInst None] /\
    callees block = List.filter inAsmjs (ctorFunctions (ModuleGlobalConstructors M)) /\
    ModuleGlobalConstructors M' = ModuleGlobalConstructors M.
Proof.
  intros Hne Hwf Hnode. unfold runOnModule.
  destruct (decide ("" ≠ "")) as [?|_]; [done|].
  destruct (ModuleGlobalConstructors M) as [|it ops] eqn:Hops; [done|].
  rewrite (visitOperands_wellformed _ _ Hwf). cbn -[ctorFunctions].
  rewrite Hnode. eexists _, _. split; [reflexivity|]. cbn -[ctorFunctions].
  split; [reflexivity|]. split; [reflexivity|]. split; [|done].
  apply callees_calls.
Qed.

Lemma start_function_calls_in_list_order_witness :
  exists M' block,
    runOnModule "" threeConstructors = Ok (false, M') /\
    functionList M'
      = [ {| fd_function := stub; fd_linkage := InternalLinkage;
             fd_blocks := [ {| bb_name := "entry"; bb_instructions := block |} ] |} ] /\
    callees block
      = [ {| getName := "A"; getSection := "asmjs"; getNumParams := 0 |};
          {| getName := "B"; getSection := "asmjs"; getNumParams := 0 |} ].
Proof.
  destruct (start_function_calls_in_list_order threeConstructors [])
    as (M' & block & Hrun & Hfl & _ & Hcallees & _).
  - done.
  - repeat constructor; by eexists.
  - reflexivity.
  - exists M', block. split; [exact Hrun|]. split; [exact Hfl|]. exact Hcallees.
Defined.

(** X8: under a wasm loader, or on a module whose [llvm.global_ctors] is
    empty, the pass returns false and leaves the module as it is, whatever the
    entries and the metadata of the module are: no assertion is reached. *)
Lemma runOnModule_no_start_function (WasmLoader : string) (M : LModule) :
  WasmLoader ≠ "" \/ ModuleGlobalConstructors M = [] ->
  runOnModule WasmLoader M = Ok (false, M).
Proof.
  intros H. unfold runOnModule. destruct (decide (WasmLoader ≠ "")); [done|].
  destruct H as [H| ->]; done.
Qed.

Lemma runOnModule_no_start_function_witness :
  runOnModule "loader.js" illFormedEntry = Ok (false, illFormedEntry).
Proof.
  apply runOnModule_no_start_function. by left.
Defined.

End StartFunctionFacts.

(** ** The store recorder *)

Section StoreRecorderFacts.

Import StoreRecorder.

Lemma execute_app (l1 l2 : list Z) (s : Session) :
  execute (l1 ++ l2) s = execute l2 (execute l1 s).
Proof. unfold execute, ExecutionEngine.reportStores. apply fold_left_app. Qed.

Lemma execute_log (Addrs : list Z) (s : Session) :
  StoreLog (execute Addrs s) = StoreLog s ∪ list_to_set Addrs /\
  pass (execute Addrs s) = pass s.
Proof.
  revert s. induction Addrs as [|a Addrs IH]; intros s.
  - cbn. split; [set_solver|done].
  - change (execute (a :: Addrs) s) with (execute Addrs (recordStore a s)).
    destruct (IH (recordStore a s)) as [-> ->]. cbn. split; [set_solver|done].
Qed.

(** C7: over a run that stores to [Addrs], in any order and with any
    repetitions, the StoreLog ends as the set of the addresses it held and
    those stored to, each once, and recording an address again changes
    nothing; at every point of the run the log contains what it held earlier;
    and recording touches nothing of the pass, so no reconstructed constant
    appears while stores are recorded. *)
Theorem recordStore_log_is_a_growing_set (Addrs Later : list Z) (a : Z) (s : Session) :
  StoreLog (execute Addrs s) = StoreLog s ∪ list_to_set Addrs /\
  NoDup (elements (StoreLog (execute Addrs s))) /\
  (forall b, b ∈ elements (StoreLog (execute Addrs s)) <-> b ∈ StoreLog s \/ b ∈ Addrs) /\
  recordStore a (recordStore a s) = recordStore a s /\
  StoreLog (execute Addrs s) ⊆ StoreLog (execute (Addrs ++ Later) s) /\
  pass (execute Addrs s) = pass s /\
  PreExecute.modifiedGlobals (pass (execute Addrs s)) = PreExecute.modifiedGlobals (pass s).
Proof.
  destruct (execute_log Addrs s) as [Hlog Hpass].
  split; [done|]. split; [apply NoDup_elements|]. split.
  { intros b. rewrite elem_of_elements, Hlog. set_solver. }
  split; [unfold recordStore; cbn; f_equal; set_solver|]. split.
  { rewrite execute_app. destruct (execute_log Later (execute Addrs s)) as [-> _].
    set_solver. }
  split; [done|]. by rewrite Hpass.
Qed.

End StoreRecorderFacts.

(** ** Pointers that resolve to nothing *)

Section ReconstructorFacts.

Import Reconstructor.

Variable pointerBytes : nat.
Variable memory : gmap Z Z.
Variable addressMap : gmap Z AddressMapEntry.
Variable typedAllocations : gmap Z AllocData.
Variable asmjs : bool.
Variable externalPointer : Z -> recon Constant.
Variable globalAddress : GlobalVariable -> option Z.

Local Abbreviation resolvePointer :=
  (resolvePointer addressMap typedAllocations asmjs externalPointer).
Local Abbreviation reconstruct :=
  (reconstruct pointerBytes memory addressMap typedAllocations asmjs externalPointer).
Local Abbreviation computeInitializerFromMemory :=
  (computeInitializerFromMemory pointerBytes memory addressMap typedAllocations asmjs
     externalPointer).
Local Abbreviation reconstructGlobal :=
  (reconstructGlobal pointerBytes memory addressMap typedAllocations asmjs externalPointer
     globalAddress).
Local Abbreviation commit :=
  (commit pointerBytes memory addressMap typedAllocations asmjs externalPointer
     globalAddress).

Lemma find_all_false {A : Type} (f : A -> bool) (l : list A) :
  (forall x, x ∈ l -> f x = false) -> List.find f l = None.
Proof.
  induction l as [|x l IH]; intros H; cbn; [done|].
  rewrite (H x) by apply list_elem_of_here.
  apply IH. intros y Hy. apply H. by apply list_elem_of_further.
Qed.

Lemma resolve_unregistered (raw : Z) :
  ~ AddressMapBase.registered addressMap raw ->
  AddressMapBase.resolve addressMap raw = None.
Proof.
  intros Hout. unfold AddressMapBase.resolve. apply find_all_false.
  intros [start e] Hin. apply elem_of_map_to_list in Hin. cbn.
  destruct (AddressMapBase.inside start e raw) eqn:Hinside; [|done].
  destruct Hout. by exists start, e.
Qed.

Lemma resolvePointer_unregistered
    (follow : option (LType -> Z -> recon Constant)) (raw : Z) :
  ~ AddressMapBase.registered addressMap raw ->
  resolvePointer follow raw
    = if raw =? 0 then Built ConstantPointerNull
      else if asmjs then Failed UnresolvablePointer
      else externalPointer raw.
Proof.
  intros Hout. unfold Reconstructor.resolvePointer.
  by rewrite resolve_unregistered.
Qed.

Lemma buildArray_fails (f : Z -> recon Constant) (stride addr : Z) (n i : nat)
    (e : ReconError) :
  (i < n)%nat -> f (addr + Z.of_nat i * stride) = Failed e ->
  exists e', buildArray f stride addr n = Failed e'.
Proof.
  revert addr i. induction n as [|n IH]; intros addr i Hi Hf; [lia|]. cbn.
  destruct i as [|i].
  - replace (addr + Z.of_nat 0 * stride) with addr in Hf by lia.
    rewrite Hf. by eexists.
  - destruct (f addr); [|by eexists].
    destruct (IH (addr + stride) i) as [e' ->]; [lia| |by eexists].
    rewrite <- Hf. f_equal. lia.
Qed.

Lemma buildFields_fails (f : LType -> Z -> recon Constant) (Addr : Z)
    (fs : list (Z * LType)) (foff : Z) (T : LType) (e : ReconError) :
  (foff, T) ∈ fs -> f T (Addr + foff) = Failed e ->
  exists e', buildFields f Addr fs = Failed e'.
Proof.
  induction fs as [|[off' T'] fs IH]; intros Hin Hf.
  - by apply elem_of_nil in Hin.
  - cbn. apply elem_of_cons in Hin as [[= <- <-]|Hin].
    + rewrite Hf. by eexists.
    + destruct (f T' (Addr + off')); [|by eexists].
      destruct (IH Hin Hf) as [e' ->]. by eexists.
Qed.

(** A value with a pointer-typed part that holds a non-null address in no
    registered region is not reconstructed in a restricted address space. *)
Lemma reconstruct_fails_at_slot
    (follow : option (LType -> Z -> recon Constant)) (T : LType) (off : Z) :
  pointerSlot pointerBytes T off ->
  forall Addr : Z,
  asmjs = true ->
  ~ AddressMapBase.registered addressMap (readBytes memory (Addr + off) pointerBytes) ->
  readBytes memory (Addr + off) pointerBytes ≠ 0 ->
  exists e, reconstruct follow T Addr = Failed e.
Proof.
  induction 1 as [T|elt n i off Hi Hslot IH|bytes fields foff T off Hin Hslot IH];
    intros Addr Hasm Hout Hraw.
  - cbn. rewrite Z.add_0_r in Hout, Hraw.
    rewrite resolvePointer_unregistered by done.
    apply Z.eqb_neq in Hraw. rewrite Hraw, Hasm. by eexists.
  - cbn. destruct (IH (Addr + Z.of_nat i * sizeOf pointerBytes elt)) as [e He]; [done|..].
    { by rewrite <- Z.add_assoc. }
    { by rewrite <- Z.add_assoc. }
    destruct (buildArray_fails _ _ _ _ _ _ Hi He) as [e' ->]. by eexists.
  - cbn. destruct (IH (Addr + foff)) as [e He]; [done|..].
    { by rewrite <- Z.add_assoc. }
    { by rewrite <- Z.add_assoc. }
    destruct (buildFields_fails _ _ _ _ _ _ Hin He) as [e' ->]. by eexists.
Qed.

Lemma computeInitializerFromMemory_unfold (budget : nat) (T : LType) (Addr : Z) :
  computeInitializerFromMemory budget T Addr
    = reconstruct
        (match budget with
         | O => None
         | S budget => Some (computeInitializerFromMemory budget)
         end) T Addr.
Proof. by destruct budget. Qed.

Lemma commitGlobal_fold_keeps (g : GlobalVariable)
    (results : list (GlobalVariable * recon Constant))
    (gs : gmap GlobalVariable GlobalSlot) :
  (forall r, (g, r) ∈ results -> isBuilt r = false) ->
  fold_left commitGlobal results gs !! g = gs !! g.
Proof.
  revert gs. induction results as [|[g' r] results IH]; intros gs Hfail; cbn; [done|].
  rewrite IH.
  - unfold commitGlobal. cbn. destruct r as [c|e]; [|done].
    destruct (decide (g' = g)) as [->|Hne].
    + by specialize (Hfail (Built c) (list_elem_of_here _ _)).
    + by rewrite lookup_alter_ne.
  - intros r0 Hr0. apply Hfail. by apply list_elem_of_further.
Qed.

(** A touched global that is not reconstructed keeps its initializer, and the
    call of its constructor stays. *)
Lemma commit_keeps_failed_global (budget : nat) (ctor : string)
    (touched : list GlobalVariable) (cu : CompilationUnit) (g : GlobalVariable)
    (e : ReconError) :
  g ∈ touched ->
  reconstructGlobal budget cu g = Failed e ->
  globals (commit budget ctor touched cu) !! g = globals cu !! g /\
  constructorCalls (commit budget ctor touched cu) = constructorCalls cu.
Proof.
  intros Hin Hfail. unfold Reconstructor.commit. cbn. split.
  - apply commitGlobal_fold_keeps. intros r Hr.
    apply list_elem_of_fmap in Hr as (g0 & [= <- ->] & _). by rewrite Hfail.
  - replace (forallb _ _) with false; [done|]. symmetry.
    apply not_true_is_false. intros Hall. rewrite forallb_forall in Hall.
    specialize (Hall (g, reconstructGlobal budget cu g)). cbn in Hall.
    rewrite Hfail in Hall. cbn in Hall.
    assert (false = true) as Hft; [|discriminate Hft].
    apply Hall, list_elem_of_In, list_elem_of_fmap.
    exists g. by rewrite Hfail.
Qed.

(** C1: a pointer-typed value whose stored address lies in no region of the
    address map is read back as the null-pointer constant when the address is
    zero; when it is not zero and the address space is restricted, it is read
    back as a failure, any global that is touched and holds this pointer in
    its storage is not reconstructed, and the commit leaves that global's
    initializer and its constructor's call as they were. *)
Theorem unresolved_pointer_is_null_or_failure
    (budget : nat) (T : LType) (Addr raw : Z) :
  readBytes memory Addr pointerBytes = raw ->
  ~ AddressMapBase.registered addressMap raw ->
  (raw = 0 ->
     computeInitializerFromMemory budget (PointerTy T) Addr = Built ConstantPointerNull) /\
  (raw ≠ 0 -> asmjs = true ->
     computeInitializerFromMemory budget (PointerTy T) Addr = Failed UnresolvablePointer /\
     forall (cu : CompilationUnit) (ctor : string) (touched : list GlobalVariable)
            (g : GlobalVariable) (slot : GlobalSlot) (gaddr off : Z),
       globals cu !! g = Some slot ->
       globalAddress g = Some gaddr ->
       pointerSlot pointerBytes (declaredType slot) off ->
       gaddr + off = Addr ->
       g ∈ touched ->
       (exists e, reconstructGlobal budget cu g = Failed e) /\
       globals (commit budget ctor touched cu) !! g = Some slot /\
       constructorCalls (commit budget ctor touched cu) = constructorCalls cu).
Proof.
  intros Hraw Hout. split.
  - intros H0. rewrite computeInitializerFromMemory_unfold. cbn.
    rewrite Hraw, resolvePointer_unregistered by done. by rewrite H0.
  - intros Hnz Hasm. split.
    + rewrite computeInitializerFromMemory_unfold. cbn.
      rewrite Hraw, resolvePointer_unregistered by done.
      apply Z.eqb_neq in Hnz. by rewrite Hnz, Hasm.
    + intros cu ctor touched g slot gaddr off Hg Hgaddr Hslot Hoff Hin.
      assert (exists e, reconstructGlobal budget cu g = Failed e) as [e He].
      { unfold Reconstructor.reconstructGlobal. rewrite Hg, Hgaddr.
        rewrite computeInitializerFromMemory_unfold.
        apply (reconstruct_fails_at_slot _ _ off); [done|done|..];
          by rewrite Hoff, Hraw. }
      split; [by exists e|].
      destruct (commit_keeps_failed_global budget ctor touched cu g e Hin He) as [-> ->].
      done.
Qed.

End ReconstructorFacts.

Lemma unresolved_pointer_is_null_or_failure_witness :
  Reconstructor.computeInitializerFromMemory 4 Reconstructor.exampleMemory
    Reconstructor.exampleAddressMap ∅ true (fun raw => Reconstructor.Built (IntToPtr raw))
    1 (PointerTy (IntegerTy 1)) 1028
    = Reconstructor.Failed Reconstructor.UnresolvablePointer /\
  Reconstructor.globals
    (Reconstructor.commit 4 Reconstructor.exampleMemory Reconstructor.exampleAddressMap ∅
       true (fun raw => Reconstructor.Built (IntToPtr raw))
       Reconstructor.exampleGlobalAddress 1 "ctor_g" ["g"] Reconstructor.exampleUnit)
    !! "g" = Some Reconstructor.exampleSlot /\
  Reconstructor.constructorCalls
    (Reconstructor.commit 4 Reconstructor.exampleMemory Reconstructor.exampleAddressMap ∅
       true (fun raw => Reconstructor.Built (IntToPtr raw))
       Reconstructor.exampleGlobalAddress 1 "ctor_g" ["g"] Reconstructor.exampleUnit)
    = ["ctor_g"].
Proof.
  destruct (unresolved_pointer_is_null_or_failure 4 Reconstructor.exampleMemory
              Reconstructor.exampleAddressMap ∅ true
              (fun raw => Reconstructor.Built (IntToPtr raw))
              Reconstructor.exampleGlobalAddress 1 (IntegerTy 1) 1028 65536)
    as [_ H].
  - vm_compute. reflexivity.
  - intros (start & e & Hlook & Hin).
    unfold Reconstructor.exampleAddressMap in Hlook.
    apply lookup_singleton_Some in Hlook as [<- <-]. vm_compute in Hin. discriminate.
  - destruct H as [Hptr Hcommit]; [lia|reflexivity|].
    split; [exact Hptr|].
    destruct (Hcommit Reconstructor.exampleUnit "ctor_g" ["g"] "g"
                Reconstructor.exampleSlot 1024 4) as (_ & Hinit & Hcalls).
    + apply lookup_singleton_eq.
    + reflexivity.
    + exact (Reconstructor.slot_struct 4 8 _ 4 (PointerTy (IntegerTy 1)) 0
               (list_elem_of_further _ _ _ (list_elem_of_here _ _))
               (Reconstructor.slot_pointer 4 _)).
    + reflexivity.
    + apply list_elem_of_here.
    + split; [exact Hinit|exact Hcalls].
Defined.

(** * Further properties of the code *)

(** ** The allocator over a whole session *)

Section AllocatorSessionFacts.

Import Allocator.

Lemma allocateAll_allocations (reqs : list (Z * Z)) (a : t) :
  allocations (allocateAll reqs a)
    = allocations a ++ ((fun r => (snd r, fst r)) <$> reqs).
Proof.
  unfold allocateAll. revert a.
  induction reqs as [|[sz mem] reqs IH]; intros a; cbn.
  - by rewrite app_nil_r.
  - rewrite IH. cbn. by rewrite <- app_assoc.
Qed.

Lemma allocateAll_outstanding (reqs : list (Z * Z)) (a : t) :
  outstanding (allocateAll reqs a) = outstanding a ++ reqs.*2.
Proof.
  unfold outstanding. rewrite allocateAll_allocations, fmap_app. f_equal.
  rewrite <- list_fmap_compose. by apply list_fmap_ext.
Qed.

Lemma allocateAll_mapping_other (reqs : list (Z * Z)) (a : t) (k : Z) :
  k ∉ reqs.*2 -> mapping (allocateAll reqs a) !! k = mapping a !! k.
Proof.
  unfold allocateAll. revert a.
  induction reqs as [|[sz mem] reqs IH]; intros a Hk; cbn; [done|].
  cbn in Hk. apply not_elem_of_cons in Hk as [Hne Hk].
  rewrite IH by done. cbn. unfold AddressMapBase.map. by rewrite lookup_insert_ne.
Qed.

Lemma allocateAll_mapping_last (reqs : list (Z * Z)) (a : t) (sz mem : Z) :
  mapping (allocateAll (reqs ++ [(sz, mem)]) a) !! mem
    = Some {| entry_length := size_t_add sz 4; entry_global := None |}.
Proof.
  unfold allocateAll. rewrite fold_left_app. cbn.
  unfold AddressMapBase.map. apply lookup_insert_eq.
Qed.

(** X1: when none of the addresses the host hands out is the start of a
    region that was registered before the allocator was made, [deallocate]
    after any run of [allocate] calls leaves the address map exactly as the
    allocator found it, and the allocator without a buffer. *)
Theorem deallocate_restores_address_map
    (reqs : list (Z * Z)) (m : gmap Z AddressMapEntry) :
  (forall r, r ∈ reqs -> m !! snd r = None) ->
  mapping (deallocate (allocateAll reqs (init m))) = m /\
  allocations (deallocate (allocateAll reqs (init m))) = [].
Proof.
  intros Hfresh. split; [|done]. apply map_eq. intros k.
  destruct (deallocate_spec (allocateAll reqs (init m))) as (_ & Hin & Hnin).
  destruct (decide (k ∈ outstanding (allocateAll reqs (init m)))) as [Hk|Hk].
  - rewrite Hin by done. rewrite allocateAll_outstanding in Hk. cbn in Hk.
    apply list_elem_of_fmap in Hk as (r & -> & Hr). symmetry. by apply Hfresh.
  - rewrite Hnin by done. rewrite allocateAll_outstanding in Hk. cbn in Hk.
    by rewrite allocateAll_mapping_other.
Qed.

Lemma deallocate_restores_address_map_witness :
  mapping (deallocate
             (allocateAll [(8, 4096); (16, 8192); (0, 12288)]
                (init {[ 1024 := {| entry_length := 4; entry_global := Some "g" |} ]})))
    = {[ 1024 := {| entry_length := 4; entry_global := Some "g" |} ]}.
Proof.
  refine (proj1 (deallocate_restores_address_map
                   [(8, 4096); (16, 8192); (0, 12288)] _ _)).
  intros r Hr. apply lookup_singleton_ne.
  repeat (apply elem_of_cons in Hr as [->|Hr]; [done|]).
  by apply elem_of_nil in Hr.
Defined.

(** X2: while the host never hands out one address twice, after any run of
    [allocate] calls every buffer has its region in the address map, an
    allocation of four bytes more than the buffer, so every address from the
    start of a buffer up to and including the one past its end is
    registered. *)
Theorem allocated_buffers_are_registered
    (reqs : list (Z * Z)) (a : t) (sz mem b : Z) :
  NoDup reqs.*2 ->
  (sz, mem) ∈ reqs ->
  0 <= sz < size_t_modulus - 4 ->
  mem <= b <= mem + sz ->
  mapping (allocateAll reqs a) !! mem
    = Some {| entry_length := sz + 4; entry_global := None |} /\
  AddressMapBase.registered (mapping (allocateAll reqs a)) b.
Proof.
  intros Hnd Hin Hsz Hb.
  assert (mapping (allocateAll reqs a) !! mem
          = Some {| entry_length := sz + 4; entry_global := None |}) as Hlook.
  { apply list_elem_of_split in Hin as (l1 & l2 & ->).
    rewrite fmap_app in Hnd. cbn in Hnd.
    apply NoDup_app in Hnd as (_ & _ & Hnd2). apply NoDup_cons in Hnd2 as [Hnotin _].
    unfold allocateAll. rewrite (fold_left_app _ l1 (_ :: l2)). cbn [fold_left].
    fold (allocateAll l1 a).
    change (fold_left _ l2 ?x) with (allocateAll l2 x).
    rewrite allocateAll_mapping_other by done. cbn.
    unfold AddressMapBase.map. rewrite lookup_insert_eq.
    by rewrite size_t_add_small. }
  split; [done|]. eexists _, _. split; [exact Hlook|].
  unfold AddressMapBase.inside. cbn. lia.
Qed.

Lemma allocated_buffers_are_registered_witness :
  AddressMapBase.registered
    (mapping (allocateAll [(8, 4096); (16, 8192)] (init ∅))) (8192 + 16).
Proof.
  refine (proj2 (allocated_buffers_are_registered
                   [(8, 4096); (16, 8192)] (init ∅) 16 8192 (8192 + 16) _ _ _ _)).
  - cbn. repeat constructor; set_solver.
  - set_solver.
  - unfold size_t_modulus. lia.
  - lia.
Defined.

End AllocatorSessionFacts.

(** ** Recording and releasing typed allocations *)

Section TrackerRoundTrips.

Import PreExecute.

(** X3: for an address without a record, [recordTypedAllocation] followed by
    [releaseTypedAllocation] of the same address succeeds and gives back the
    pass as it was. *)
Theorem record_then_release_restores
    (type : option LType) (size buf : Z) (p : t) :
  typedAllocations p !! buf = None ->
  (recordTypedAllocation type size buf p ≫= releaseTypedAllocation buf) = Ok p.
Proof.
  intros Hnone. unfold recordTypedAllocation. cbn.
  unfold releaseTypedAllocation. cbn.
  rewrite std_map_insert_lookup. cbn. f_equal.
  unfold std_map_insert. rewrite Hnone, delete_insert_eq.
  rewrite delete_id by done. by destruct p.
Qed.

Lemma record_then_release_restores_witness :
  (recordTypedAllocation (Some (IntegerTy 4)) 8 4096 Session.afterOneAllocation
     ≫= releaseTypedAllocation 4096) = Ok Session.afterOneAllocation.
Proof.
  apply record_then_release_restores. reflexivity.
Defined.

(** X4: after a successful [releaseTypedAllocation] of an address, a second
    release of the same address fails the assertion. *)
Theorem release_twice_fails_assertion (buf : Z) (p p' : t) :
  releaseTypedAllocation buf p = Ok p' ->
  releaseTypedAllocation buf p'
    = AssertFail "There is no typed allocation recorded with this address".
Proof.
  unfold releaseTypedAllocation.
  destruct (typedAllocations p !! buf); [|done].
  intros [= <-]. cbn. by rewrite lookup_delete_eq.
Qed.

Lemma release_twice_fails_assertion_witness :
  releaseTypedAllocation 4096
    (set_typedAllocations (delete 4096 (typedAllocations Session.withOneRecord))
       Session.withOneRecord)
    = AssertFail "There is no typed allocation recorded with this address".
Proof.
  apply (release_twice_fails_assertion 4096 Session.withOneRecord).
  reflexivity.
Defined.

(** X5: for an address that has a record, [releaseTypedAllocation] followed
    by [recordTypedAllocation] of the same address succeeds and replaces the
    record by the new type and size; the other records, the allocator and the
    modified globals are as before. *)
Theorem release_then_record_replaces
    (type : option LType) (size buf : Z) (d : AllocData) (p : t) :
  typedAllocations p !! buf = Some d ->
  (releaseTypedAllocation buf p ≫= recordTypedAllocation type size buf)
    = Ok (set_typedAllocations
            (<[buf := {| globalValue := None; allocType := type; size := size |}]>
               (typedAllocations p)) p).
Proof.
  intros Hd. unfold releaseTypedAllocation. rewrite Hd. cbn.
  unfold recordTypedAllocation. cbn. f_equal. unfold set_typedAllocations. cbn.
  f_equal. unfold std_map_insert. rewrite lookup_delete_eq.
  apply insert_delete_eq.
Qed.

Lemma release_then_record_replaces_witness :
  (releaseTypedAllocation 4096 Session.withOneRecord
     ≫= recordTypedAllocation (Some (FloatTy 8)) 64 4096)
    = Ok (set_typedAllocations
            {[ 4096 := {| globalValue := None; allocType := Some (FloatTy 8); size := 64 |} ]}
            Session.withOneRecord).
Proof.
  exact (release_then_record_replaces (Some (FloatTy 8)) 64 4096 _
           Session.withOneRecord (lookup_singleton_eq _ _)).
Defined.

End TrackerRoundTrips.

(** ** Running functions and exit handlers *)

Section InterpreterRunFacts.

Import Interpreter.

Context {LModule : Type}.
Variable callFunction :
  Function -> list GenericValue -> Interpreter.t LModule -> Interpreter.t LModule.
Variable run : Interpreter.t LModule -> Interpreter.t LModule.

(** X6: given fewer arguments than [F]'s type has parameters, [runFunction]
    reads [ArgValues] past its end, which is undefined, and never gets to call
    [F]. *)
Theorem runFunction_too_few_arguments
    (F : Function) (ArgValues : list GenericValue) (I : Interpreter.t LModule) :
  (length ArgValues < getNumParams F)%nat ->
  runFunction callFunction run (Some F) ArgValues I = Undefined.
Proof.
  intros Hlen. unfold runFunction.
  rewrite copyArgs_short by lia. done.
Qed.

Hypothesis callFunction_keeps_handlers : forall F args I,
  AtExitHandlers (callFunction F args I) = AtExitHandlers I.
Hypothesis run_keeps_handlers : forall I,
  AtExitHandlers (run I) = AtExitHandlers I.

Lemma atExitTurn_handlers (I : Interpreter.t LModule) (h : Function) :
  AtExitHandlers (atExitTurn callFunction run I h) = removelast (AtExitHandlers I).
Proof.
  unfold atExitTurn. rewrite run_keeps_handlers. cbn.
  by rewrite callFunction_keeps_handlers.
Qed.

Lemma pop_back_snoc (I : Interpreter.t LModule) (hs : list Function) (h : Function) :
  AtExitHandlers I = hs ++ [h] -> pop_back I = Ok (set_AtExitHandlers hs I).
Proof.
  intros Hhs. unfold pop_back. rewrite Hhs.
  destruct (hs ++ [h]) as [|h0 l0] eqn:Hl; [by destruct hs|].
  by rewrite <- Hl, removelast_last.
Qed.

Lemma runAtExitHandlers_turns (hs : list Function) :
  forall (fuel : nat) (I : Interpreter.t LModule),
  AtExitHandlers I = hs ->
  (length hs < fuel)%nat ->
  runAtExitHandlers callFunction run fuel I
    = Some (Ok (fold_left (atExitTurn callFunction run) (rev hs) I)) /\
  AtExitHandlers (fold_left (atExitTurn callFunction run) (rev hs) I) = [].
Proof.
  induction hs as [|h hs IH] using rev_ind; intros fuel I Hhs Hfuel.
  - destruct fuel as [|fuel]; [cbn in Hfuel; lia|]. cbn. by rewrite Hhs.
  - destruct fuel as [|fuel]; [cbn in Hfuel; lia|].
    rewrite length_app in Hfuel. cbn in Hfuel.
    rewrite rev_unit. cbn [fold_left runAtExitHandlers].
    rewrite Hhs, last_snoc.
    rewrite (pop_back_snoc _ hs h) by (by rewrite callFunction_keeps_handlers).
    assert (run (set_AtExitHandlers hs (callFunction h [] I))
            = atExitTurn callFunction run I h) as ->.
    { unfold atExitTurn. cbn.
      by rewrite callFunction_keeps_handlers, Hhs, removelast_last. }
    apply IH; [|lia].
    by rewrite atExitTurn_handlers, Hhs, removelast_last.
Qed.

(** X7: when neither [callFunction] nor [run] registers or removes an exit
    handler, [runAtExitHandlers] ends after one turn per handler: it calls the
    handlers last registered first, each without arguments and each followed
    by a run, and leaves no handler registered. *)
Theorem runAtExitHandlers_last_registered_first
    (fuel : nat) (I : Interpreter.t LModule) :
  (length (AtExitHandlers I) < fuel)%nat ->
  runAtExitHandlers callFunction run fuel I
    = Some (Ok (fold_left (atExitTurn callFunction run) (rev (AtExitHandlers I)) I)) /\
  AtExitHandlers (fold_left (atExitTurn callFunction run) (rev (AtExitHandlers I)) I) = [].
Proof.
  intros Hfuel. by apply runAtExitHandlers_turns.
Qed.

End InterpreterRunFacts.

Lemma runFunction_too_few_arguments_witness :
  Interpreter.runFunction Interpreter.noteCall (fun I => I)
    (Some {| getName := "main"; getSection := ""; getNumParams := 2 |})
    [GV_Untyped 1] Interpreter.twoHandlers = Undefined.
Proof.
  apply (runFunction_too_few_arguments (LModule := unit)). cbn. lia.
Defined.

Lemma runAtExitHandlers_last_registered_first_witness :
  exists I',
    Interpreter.runAtExitHandlers Interpreter.noteCall (fun I => I) 3
      Interpreter.twoHandlers = Some (Ok I') /\
    Interpreter.AtExitHandlers I' = [] /\
    Interpreter.Execution I'
      = [(Interpreter.handlerA, []); (Interpreter.handlerB, [])].
Proof.
  destruct (runAtExitHandlers_last_registered_first (LModule := unit)
              Interpreter.noteCall (fun I => I)
              (fun _ _ _ => eq_refl) (fun _ => eq_refl) 3 Interpreter.twoHandlers)
    as [Hrun Hnil]; [cbn; lia|].
  eexists. split; [exact Hrun|]. split; [exact Hnil|reflexivity].
Defined.

(** ** The start function: what else the pass does *)

Section StartFunctionEdges.

Import CallGlobalConstructorsOnStartPass.

Lemma visitOperand_illformed (it : Constant) :
  ctorFunction it = None -> is_AssertFail (visitOperand it) = true.
Proof.
  unfold ctorFunction, visitOperand, getAggregateElement.
  destruct it as [| | | | | | | |elts]; try done.
  destruct (elts !! 1%nat) as [[]|]; done.
Qed.

Lemma visitOperands_illformed (ops : list Constant) (block : list Instruction) :
  Exists (fun it => ctorFunction it = None) ops ->
  is_AssertFail (visitOperands ops block) = true.
Proof.
  intros Hex. revert block. induction ops as [|it ops IH]; intros block.
  - by apply Exists_nil in Hex.
  - cbn. destruct (ctorFunction it) as [F|] eqn:HF.
    + rewrite (visitOperand_wellformed _ _ HF). cbn.
      apply IH. apply Exists_cons in Hex as [Hex|Hex]; [congruence|done].
    + pose proof (visitOperand_illformed _ HF) as Hfail.
      by destruct (visitOperand it).
Qed.

(** X9: without a wasm loader, an entry of [llvm.global_ctors] that is not a
    struct with a function as its second element makes the pass fail an
    assertion; no module comes out. *)
Theorem runOnModule_illformed_entry_fails (M : LModule) :
  Exists (fun it => ctorFunction it = None) (ModuleGlobalConstructors M) ->
  is_AssertFail (runOnModule "" M) = true.
Proof.
  intros Hex. unfold runOnModule. destruct (decide ("" ≠ "")); [done|].
  destruct (ModuleGlobalConstructors M) as [|it ops] eqn:Hops.
  - by apply Exists_nil in Hex.
  - pose proof (visitOperands_illformed _ [] Hex) as Hfail.
    by destruct (visitOperands (it :: ops) []).
Qed.

Lemma runOnModule_illformed_entry_fails_witness :
  is_AssertFail (runOnModule "" illFormedEntry) = true.
Proof.
  apply runOnModule_illformed_entry_fails.
  apply Exists_cons_tl, Exists_cons_hd. reflexivity.
Defined.

(** X10: without a wasm loader, on a module with well-formed constructor
    entries, at least one, and without the [jsexported_methods] metadata, the
    pass fails the assertion on that metadata, also when no constructor is in
    the asmjs section. *)
Theorem runOnModule_without_metadata_fails (M : LModule) :
  ModuleGlobalConstructors M ≠ [] ->
  Forall (fun it => is_Some (ctorFunction it)) (ModuleGlobalConstructors M) ->
  namedMetadata M !! "jsexported_methods" = None ->
  runOnModule "" M = AssertFail "create jsexported_methods metadata node".
Proof.
  intros Hne Hwf Hnode. unfold runOnModule.
  destruct (decide ("" ≠ "")); [done|].
  destruct (ModuleGlobalConstructors M) as [|it ops] eqn:Hops; [done|].
  rewrite (visitOperands_wellformed _ _ Hwf). cbn -[ctorFunctions].
  by rewrite Hnode.
Qed.

Lemma runOnModule_without_metadata_fails_witness :
  runOnModule "" withoutMetadata
    = AssertFail "create jsexported_methods metadata node".
Proof.
  apply runOnModule_without_metadata_fails.
  - done.
  - repeat constructor; by eexists.
  - reflexivity.
Defined.

(** X11: without a wasm loader, on a module with the metadata whose
    constructors, at least one, are all outside the asmjs section, the pass
    still appends [_start], with a block that only returns, and still exports
    it. *)
Theorem runOnModule_no_asmjs_constructor (M : LModule) (node : list (list Metadata)) :
  ModuleGlobalConstructors M ≠ [] ->
  Forall (fun it => exists F, ctorFunction it = Some F /\ getSection F ≠ "asmjs")
    (ModuleGlobalConstructors M) ->
  namedMetadata M !! "jsexported_methods" = Some node ->
  runOnModule "" M
    = Ok (false,
          {| functionList :=
               functionList M ++
               [ {| fd_function := stub; fd_linkage := InternalLinkage;
                    fd_blocks := [ {| bb_name := "entry";
                                      bb_instructions := [ReturnInst None] |} ] |} ];
             ModuleGlobalConstructors := ModuleGlobalConstructors M;
             namedMetadata :=
               <["jsexported_methods" := node ++ [ [ConstantAsMetadata (FunctionValue stub)] ]]>
                 (namedMetadata M) |}).
Proof.
  intros Hne Hout Hnode.
  assert (Forall (fun it => is_Some (ctorFunction it)) (ModuleGlobalConstructors M)) as Hwf.
  { eapply Forall_impl; [exact Hout|]. intros it (F & HF & _). by exists F. }
  assert (List.filter inAsmjs (ctorFunctions (ModuleGlobalConstructors M)) = []) as Hnone.
  { clear Hne Hwf Hnode. induction Hout as [|it ops (F & HF & Hsec) _ IH]; [done|].
    unfold ctorFunctions. cbn. rewrite HF. cbn. fold (ctorFunctions ops).
    unfold inAsmjs at 1. by rewrite bool_decide_eq_false_2. }
  unfold runOnModule. destruct (decide ("" ≠ "")); [done|].
  destruct (ModuleGlobalConstructors M) as [|it ops] eqn:Hops; [done|].
  rewrite (visitOperands_wellformed _ _ Hwf), Hnone. cbn.
  by rewrite Hnode.
Qed.

Lemma runOnModule_no_asmjs_constructor_witness :
  exists M', runOnModule "" outsideAsmjs = Ok (false, M') /\
    (fd_blocks <$> functionList M')
      = [ [ {| bb_name := "entry"; bb_instructions := [ReturnInst None] |} ] ].
Proof.
  eexists. split.
  - apply (runOnModule_no_asmjs_constructor outsideAsmjs []).
    + done.
    + repeat constructor. eexists. split; [reflexivity|done].
    + reflexivity.
  - reflexivity.
Defined.

(** X12: when the pass appends [_start], it appends to the
    [jsexported_methods] metadata one node that holds [_start], keeps the
    nodes that were there, and changes no other named metadata. *)
Theorem runOnModule_exports_start (M M' : LModule) (flag : bool)
    (node : list (list Metadata)) :
  ModuleGlobalConstructors M ≠ [] ->
  namedMetadata M !! "jsexported_methods" = Some node ->
  runOnModule "" M = Ok (flag, M') ->
  flag = false /\
  namedMetadata M' !! "jsexported_methods"
    = Some (node ++ [ [ConstantAsMetadata (FunctionValue stub)] ]) /\
  (forall k, k ≠ "jsexported_methods" -> namedMetadata M' !! k = namedMetadata M !! k).
Proof.
  intros Hne Hnode. unfold runOnModule. destruct (decide ("" ≠ "")); [done|].
  destruct (ModuleGlobalConstructors M) as [|it ops] eqn:Hops; [done|].
  destruct (visitOperands (it :: ops) []) as [block| |]; cbn; [|done..].
  rewrite Hnode. intros [= <- <-]. cbn. split; [done|]. split.
  - apply lookup_insert_eq.
  - intros k Hk. by rewrite lookup_insert_ne.
Qed.

Lemma runOnModule_exports_start_witness :
  exists M', runOnModule "" threeConstructors = Ok (false, M') /\
    namedMetadata M' !! "jsexported_methods"
      = Some [ [ConstantAsMetadata (FunctionValue stub)] ].
Proof.
  eexists. split; [reflexivity|].
  refine (proj1 (proj2 (runOnModule_exports_start threeConstructors _ false [] _ _ _))).
  - done.
  - reflexivity.
  - reflexivity.
Defined.

End StartFunctionEdges.
